(** * csvsorter: a binary sort tree over CSV records

    A shallow embedding of [csvsorter.go].  The Go program keeps its records
    in an unbalanced binary search tree keyed by one field, fills the tree
    from a stream of records and writes it out by an in-order walk.

    Conventions of the embedding:
    - a [*Node] is an [option Node]; [nil] is [None];
    - the in-place updates of [Tree.Insert] and [Node.insert] return the
      updated structure;
    - [log.Fatalf] (which ends the process) and a run-time panic are the two
      abnormal results of the [outcome] type;
    - a channel of records is the list of the records received from it, in
      the order of arrival;
    - the visitor of [Traverse] threads a state of the caller's choice. *)

From Stdlib Require Import List Bool Arith NArith Lia.
From Stdlib Require Import Ascii String.
From Stdlib Require Import Sorted Permutation.
Import ListNotations.

Local Open Scope string_scope.
Local Open Scope nat_scope.
Local Open Scope list_scope.

(** ** Data model *)

(** [type Record []string] *)
Definition Record : Type := list string.

(** [type Node struct { val Record; left *Node; right *Node }] *)
#[warnings="-register-all"]
Inductive Node : Type :=
  mkNode { val : Record; left : option Node; right : option Node }.

(** [type Tree struct { sortIndex uint; root *Node }] *)
Record Tree : Type := mkTree { sortIndex : N; root : option Node }.

(** [&Node{val: value}] *)
Definition leaf (value : Record) : Node := mkNode value None None.

(** A property of the node behind a pointer, if there is one. *)
Definition on_ptr (P : Node -> Prop) (p : option Node) : Prop :=
  match p with
  | None => True
  | Some n => P n
  end.

(** Induction over nodes through their optional children. *)
Fixpoint Node_ptr_ind (P : Node -> Prop)
    (step : forall v l r, on_ptr P l -> on_ptr P r -> P (mkNode v l r))
    (n : Node) {struct n} : P n :=
  match n with
  | mkNode v l r =>
      step v l r
        (match l return on_ptr P l with
         | None => I
         | Some c => Node_ptr_ind P step c
         end)
        (match r return on_ptr P r with
         | None => I
         | Some c => Node_ptr_ind P step c
         end)
  end.

(** ** Results of a call *)

Inductive Diagnostic : Type :=
| IndexOutOfRange                       (* "index out of range\n" *)
| InvalidRecordLength (len : nat)       (* "invalid record length: %d\n" *)
| OpenFailed (filename : string).       (* the error of os.Open *)

Inductive outcome (A : Type) : Type :=
| Done (a : A)                (* the call returns *)
| Fatal (d : Diagnostic)      (* log.Fatalf: diagnostic, then exit *)
| Panic.                      (* run-time panic (index out of range) *)
Arguments Done {A} a.
Arguments Fatal {A} d.
Arguments Panic {A}.

Definition bind {A B} (m : outcome A) (k : A -> outcome B) : outcome B :=
  match m with
  | Done a => k a
  | Fatal d => Fatal d
  | Panic => Panic
  end.

Notation "x <- m ;; k" := (bind m (fun x => k))
  (at level 61, m at next level, right associativity).

(** [type Comparator func(Record, Record) bool] *)
Definition Comparator : Type := Record -> Record -> outcome bool.

(** [r[i]] for a [uint] index: panics out of range. *)
Definition index (r : Record) (i : N) : outcome string :=
  match nth_error r (N.to_nat i) with
  | Some f => Done f
  | None => Panic
  end.

(** ** The tree *)

(** [func NewTree(sortIndex uint) *Tree] *)
Definition NewTree (sortIndex : N) : Tree := mkTree sortIndex None.

(** [func (n *Node) insert(value Record, cmp Comparator)] *)
Fixpoint insert (n : Node) (value : Record) (cmp : Comparator)
  : outcome Node :=
  less <- cmp value (val n) ;;
  if less then
    match left n with
    | None => Done (mkNode (val n) (Some (leaf value)) (right n))
    | Some l =>
        l' <- insert l value cmp ;;
        Done (mkNode (val n) (Some l') (right n))
    end
  else
    match right n with
    | None => Done (mkNode (val n) (left n) (Some (leaf value)))
    | Some r =>
        r' <- insert r value cmp ;;
        Done (mkNode (val n) (left n) (Some r'))
    end.

(** [func traverseInOrder(node *Node, reverse bool, visit Visitor)], with the
    visitor acting on a state [S].  The recursion is on the node behind the
    pointer: [traverseNode] is the body of the function for a non-nil
    [node], and [enter] is a call of the function, with its nil test. *)
Fixpoint traverseNode {S : Type} (n : Node) (reverse : bool)
    (visit : Node -> S -> S) (s : S) {struct n} : S :=
  let enter (node : option Node) (s : S) : S :=
    match node with
    | None => s
    | Some c => traverseNode c reverse visit s
    end in
  let first := if reverse then right n else left n in
  let second := if reverse then left n else right n in
  let s1 := enter first s in
  let s2 := visit n s1 in
  enter second s2.

Definition traverseInOrder {S : Type} (node : option Node) (reverse : bool)
    (visit : Node -> S -> S) (s : S) : S :=
  match node with
  | None => s
  | Some n => traverseNode n reverse visit s
  end.

(** The comparator built by [Tree.Insert]:
    [left[t.sortIndex] < right[t.sortIndex]], the byte-wise lexicographic
    order of Go strings. *)
Definition fieldCmp (i : N) : Comparator :=
  fun l r =>
    a <- index l i ;;
    b <- index r i ;;
    Done (String.ltb a b).

(** [func (t *Tree) Insert(value Record)] *)
Definition Insert (t : Tree) (value : Record) : outcome Tree :=
  match root t with
  | None => Done (mkTree (sortIndex t) (Some (leaf value)))
  | Some rt =>
      (* t.sortIndex >= uint(len(value)) *)
      if (N.of_nat (List.length value) <=? sortIndex t)%N then
        Fatal IndexOutOfRange
      else if negb (List.length value =? List.length (val rt))%nat then
        Fatal (InvalidRecordLength (List.length value))
      else
        rt' <- insert rt value (fieldCmp (sortIndex t)) ;;
        Done (mkTree (sortIndex t) (Some rt'))
  end.

(** [func (t *Tree) Traverse(reverse bool, visit Visitor)] *)
Definition Traverse {S : Type} (t : Tree) (reverse : bool)
    (visit : Node -> S -> S) (s : S) : S :=
  match root t with
  | Some _ => traverseInOrder (root t) reverse visit s
  | None => s
  end.

(** [func BuildTreeFromStream(tree *Tree, stream <-chan Record)]: the
    records received from the channel until it is closed, in order. *)
Fixpoint BuildTreeFromStream (tree : Tree) (stream : list Record)
  : outcome Tree :=
  match stream with
  | [] => Done tree
  | record :: rest =>
      tree' <- Insert tree record ;;
      BuildTreeFromStream tree' rest
  end.

(** The sequence of nodes handed to the visitor, and their records. *)
Definition visited (t : Tree) (reverse : bool) : list Node :=
  Traverse t reverse (fun n acc => acc ++ [n]) [].

Definition output (t : Tree) (reverse : bool) : list Record :=
  map val (visited t reverse).

(** ** The writer *)

(** The two methods of [csv.Writer] that the program calls, over a writer
    state [W]: [Write] returns the new state and whether it failed. *)
Record WriterOps (W : Type) : Type := mkWriterOps {
  Write : W -> Record -> W * bool;
  Flush : W -> W
}.
Arguments Write {W} _ _ _.
Arguments Flush {W} _ _.

(** [func WriteTree(tree *Tree, writer *csv.Writer, reverse bool)]: the
    error returned by [writer.Write] is dropped. *)
Definition WriteTree {W : Type} (ops : WriterOps W) (tree : Tree)
    (writer : W) (reverse : bool) : outcome W :=
  let writer' :=
    Traverse tree reverse
      (fun node w => fst (Write ops w (val node))) writer in
  Done (Flush ops writer').

(** ** The reader *)

(** [strings.Split(s, sep)] of the Go library for a one-byte separator:
    the substrings between the occurrences of [sep]. *)
Fixpoint Split (s : string) (sep : ascii) : list string :=
  match s with
  | EmptyString => [EmptyString]
  | String c s' =>
      if Ascii.eqb c sep then EmptyString :: Split s' sep
      else match Split s' sep with
           | f :: fs => String c f :: fs
           | [] => [String c EmptyString]
           end
  end.

Definition comma : ascii := ","%char.

(** The scanning loop of [ReadCSVFromFile] over the lines that the
    [bufio.Scanner] yields; the result is the sequence of records sent on
    the stream. *)
Fixpoint scanLines (lines : list string) : list Record :=
  match lines with
  | [] => []
  | line :: rest =>
      if String.eqb line EmptyString then []
      else Split line comma :: scanLines rest
  end.


(** ** Notions used to state the properties *)

(** The nodes below a node (itself included) from left to right, and the
    same below a pointer. *)
Fixpoint nodes (n : Node) : list Node :=
  let below (p : option Node) : list Node :=
    match p with
    | None => []
    | Some c => nodes c
    end in
  below (left n) ++ n :: below (right n).

Definition nodesOf (p : option Node) : list Node :=
  match p with
  | None => []
  | Some n => nodes n
  end.

Definition records (p : option Node) : list Record := map val (nodesOf p).

(** The number of nodes. *)
Fixpoint size (n : Node) : nat :=
  let below (p : option Node) : nat :=
    match p with
    | None => 0
    | Some c => size c
    end in
  S (below (left n) + below (right n)).

Definition sizeOf (p : option Node) : nat :=
  match p with
  | None => 0
  | Some n => size n
  end.

(** The field of a record at position [i], when it has one. *)
Definition fieldAt (i : N) (r : Record) : option string :=
  nth_error r (N.to_nat i).

(** [a] is strictly below [b] on field [i]; [a] is not above [b] on
    field [i].  Both say that the two records have a field [i]. *)
Definition fieldLt (i : N) (a b : Record) : Prop :=
  exists fa fb,
    fieldAt i a = Some fa /\ fieldAt i b = Some fb /\ String.ltb fa fb = true.

Definition fieldLe (i : N) (a b : Record) : Prop :=
  exists fa fb,
    fieldAt i a = Some fa /\ fieldAt i b = Some fb /\ String.ltb fb fa = false.

(** The record has the string [k] as its field [i]. *)
Definition keyIs (i : N) (k : string) (r : Record) : bool :=
  match fieldAt i r with
  | Some f => String.eqb f k
  | None => false
  end.

(** The search-tree invariant on field [i]: everything to the left of a
    node is strictly below it, everything to the right is not below it. *)
Fixpoint BST (i : N) (n : Node) : Prop :=
  let below (p : option Node) : Prop :=
    match p with
    | None => True
    | Some c => BST i c
    end in
  (forall x, In x (records (left n)) -> fieldLt i x (val n)) /\
  (forall x, In x (records (right n)) -> fieldLe i (val n) x) /\
  below (left n) /\ below (right n).

(** The descent that the specification describes: compare on field [i],
    go left when strictly less and right otherwise, and hang the record as
    a new leaf in the first missing child slot. *)
Definition less (i : N) (a b : Record) : bool :=
  String.ltb (nth (N.to_nat i) a EmptyString) (nth (N.to_nat i) b EmptyString).

Fixpoint descendNode (i : N) (value : Record) (n : Node) : Node :=
  if less i value (val n) then
    mkNode (val n)
      (Some match left n with
            | None => leaf value
            | Some l => descendNode i value l
            end)
      (right n)
  else
    mkNode (val n) (left n)
      (Some match right n with
            | None => leaf value
            | Some r => descendNode i value r
            end).

Definition descend (i : N) (value : Record) (slot : option Node) : Node :=
  match slot with
  | None => leaf value
  | Some n => descendNode i value n
  end.

(** The record has a field at position [i]. *)
Definition inRange (i : N) (r : Record) : Prop :=
  (i < N.of_nat (List.length r))%N.

(** The arity fixed by the record at [p], if there is one, is [a]. *)
Definition schema (a : nat) (p : option Node) : Prop :=
  match p with
  | None => True
  | Some rt => List.length (val rt) = a
  end.

(** Every record below [p] has the arity of the record at [p], and the sort
    index is within that arity. *)
Definition arityOK (i : N) (p : option Node) : Prop :=
  match p with
  | None => True
  | Some rt =>
      (i < N.of_nat (List.length (val rt)))%N /\
      Forall (fun r => List.length r = List.length (val rt)) (records p)
  end.

Definition Good (i : N) (t : Tree) : Prop :=
  sortIndex t = i /\ arityOK i (root t) /\ on_ptr (BST i) (root t).

(** How often the byte [c] occurs in [s]. *)
Definition occurrences (c : ascii) (s : string) : nat :=
  count_occ ascii_dec (list_ascii_of_string s) c.

(** A writer whose destination takes [cap] records and rejects the rest.
    Its state keeps the records taken, the records it was asked to write,
    and the number of flushes. *)
Record Sink : Type := mkSink {
  taken : list Record;
  asked : list Record;
  flushes : nat
}.

Definition boundedOps (cap : nat) : WriterOps Sink :=
  mkWriterOps Sink
    (fun w r =>
       if List.length (taken w) <? cap then
         (mkSink (taken w ++ [r]) (asked w ++ [r]) (flushes w), false)
       else
         (mkSink (taken w) (asked w ++ [r]) (flushes w), true))
    (fun w => mkSink (taken w) (asked w) (S (flushes w))).

(** ** Notions used for the further properties *)

(** [v] put into a list in front of the first record strictly above it on
    field [i], and the stable insertion sort that this gives. *)
Fixpoint place (i : N) (v : Record) (l : list Record) : list Record :=
  match l with
  | [] => [v]
  | x :: l' => if less i v x then v :: l else x :: place i v l'
  end.

Definition stableSort (i : N) (rs : list Record) : list Record :=
  fold_left (fun l v => place i v l) rs [].

(** The two checks of [Tree.Insert] on a record, against the arity [a] of
    the root, in the order of the code; the diagnostic of the first record
    of a stream that fails one. *)
Definition checkRecord (i : N) (a : nat) (r : Record) : option Diagnostic :=
  if (N.of_nat (List.length r) <=? i)%N then Some IndexOutOfRange
  else if negb (List.length r =? a) then
    Some (InvalidRecordLength (List.length r))
  else None.

Fixpoint firstBad (i : N) (a : nat) (rs : list Record) : option Diagnostic :=
  match rs with
  | [] => None
  | r :: rest =>
      match checkRecord i a r with
      | Some d => Some d
      | None => firstBad i a rest
      end
  end.

(** The tree with one more record, hung by the descent. *)
Definition grow (i : N) (t : Tree) (value : Record) : Tree :=
  mkTree i (Some (descend i value (root t))).

(** The number of nodes on the longest path down from a node: the depth of
    the recursion of [insert] and [traverseInOrder]. *)
Fixpoint height (n : Node) : nat :=
  let below (p : option Node) : nat :=
    match p with
    | None => 0
    | Some c => height c
    end in
  S (Nat.max (below (left n)) (below (right n))).

Definition heightOf (p : option Node) : nat :=
  match p with
  | None => 0
  | Some n => height n
  end.

(** No node has a left child. *)
Fixpoint rightSpine (n : Node) : Prop :=
  left n = None /\
  match right n with
  | None => True
  | Some c => rightSpine c
  end.

(** [x - 1] on a [uint] of [w] bits, and the tree that [main] creates for
    the value [index] of the flag [-f]: [NewTree(index - 1)]. *)
Definition uintDec (w : N) (x : N) : N := ((x + 2 ^ w - 1) mod 2 ^ w)%N.

Definition mainTree (w : N) (index : N) : Tree := NewTree (uintDec w index).

(** ** Sample runs *)

Example run_ascending :
  option_map (fun t => output t false)
    (match BuildTreeFromStream (NewTree 0)
             (scanLines ["b,2"; "a,1"; "c,3"]) with
     | Done t => Some t
     | _ => None
     end)
  = Some [["a"; "1"]; ["b"; "2"]; ["c"; "3"]].
Proof. reflexivity. Qed.

Example run_descending :
  option_map (fun t => output t true)
    (match BuildTreeFromStream (NewTree 0)
             (scanLines ["b,2"; "a,1"; "c,3"]) with
     | Done t => Some t
     | _ => None
     end)
  = Some [["c"; "3"]; ["b"; "2"]; ["a"; "1"]].
Proof. reflexivity. Qed.

Example run_blank_line :
  scanLines ["x,y"; EmptyString; "z,w"] = [["x"; "y"]].
Proof. reflexivity. Qed.

Example run_split : Split "a,,b," comma = ["a"; EmptyString; "b"; EmptyString].
Proof. reflexivity. Qed.

(** ** The order of Go strings *)

Module StrOrder.

Lemma ascii_compare_refl (c : ascii) : Ascii.compare c c = Eq.
Proof. unfold Ascii.compare. apply N.compare_refl. Qed.

Lemma ascii_compare_lt_trans (a b c : ascii) :
  Ascii.compare a b = Lt -> Ascii.compare b c = Lt -> Ascii.compare a c = Lt.
Proof.
  unfold Ascii.compare. rewrite !N.compare_lt_iff. apply N.lt_trans.
Qed.

Lemma compare_refl (s : string) : String.compare s s = Eq.
Proof.
  induction s as [|c s IH]; simpl; [reflexivity|].
  now rewrite ascii_compare_refl.
Qed.

Lemma compare_lt_trans (a : string) :
  forall b c, String.compare a b = Lt -> String.compare b c = Lt ->
              String.compare a c = Lt.
Proof.
  induction a as [|x a IH]; intros [|y b] [|z c]; simpl;
    try discriminate; try reflexivity.
  destruct (Ascii.compare x y) eqn:Exy; try discriminate.
  - apply Ascii.compare_eq_iff in Exy. subst y.
    destruct (Ascii.compare x z); try discriminate; [apply IH | reflexivity].
  - intros _.
    destruct (Ascii.compare y z) eqn:Eyz; try discriminate.
    + apply Ascii.compare_eq_iff in Eyz. subst z. now rewrite Exy.
    + intros _. now rewrite (ascii_compare_lt_trans _ _ _ Exy Eyz).
Qed.

Lemma ltb_lt (a b : string) : String.ltb a b = true <-> String.compare a b = Lt.
Proof.
  unfold String.ltb. destruct (String.compare a b); split; congruence.
Qed.

Lemma ltb_irrefl (s : string) : String.ltb s s = false.
Proof. unfold String.ltb. now rewrite compare_refl. Qed.

Lemma ltb_trans (a b c : string) :
  String.ltb a b = true -> String.ltb b c = true -> String.ltb a c = true.
Proof. rewrite !ltb_lt. apply compare_lt_trans. Qed.


Lemma ltb_false_cases (a b : string) :
  String.ltb a b = false -> a = b \/ String.ltb b a = true.
Proof.
  unfold String.ltb. rewrite (String.compare_antisym b a).
  destruct (String.compare a b) eqn:E; simpl; try discriminate.
  - left. now apply String.compare_eq_iff.
  - now right.
Qed.

End StrOrder.

(** Splits a conjunction into its parts. *)
Ltac conjs := repeat match goal with |- _ /\ _ => split end.

(** ** The walk *)

Lemma nodesOf_node (v : Record) (l r : option Node) :
  nodesOf (Some (mkNode v l r)) = nodesOf l ++ mkNode v l r :: nodesOf r.
Proof. destruct l, r; reflexivity. Qed.

Lemma records_node (v : Record) (l r : option Node) :
  records (Some (mkNode v l r)) = records l ++ v :: records r.
Proof.
  unfold records. rewrite nodesOf_node, map_app. reflexivity.
Qed.

(** The recursive equation of the Go function. *)
Lemma traverseInOrder_eq {S : Type} (n : Node) (reverse : bool)
    (visit : Node -> S -> S) (s : S) :
  traverseInOrder (Some n) reverse visit s =
  traverseInOrder (if reverse then left n else right n) reverse visit
    (visit n
       (traverseInOrder (if reverse then right n else left n)
          reverse visit s)).
Proof. destruct n as [v l r]. reflexivity. Qed.

(** A walk applies the visitor to the nodes from left to right, or from
    right to left when reversed. *)
Lemma traverseNode_fold {S : Type} (visit : Node -> S -> S) (reverse : bool) :
  forall (n : Node) (s : S),
    traverseNode n reverse visit s =
    fold_left (fun acc m => visit m acc)
      (if reverse then rev (nodes n) else nodes n) s.
Proof.
  induction n as [v l r IHl IHr] using Node_ptr_ind. intros s.
  change (nodes (mkNode v l r)) with (nodesOf (Some (mkNode v l r))).
  rewrite nodesOf_node.
  change (traverseNode (mkNode v l r) reverse visit s)
    with (traverseInOrder (Some (mkNode v l r)) reverse visit s).
  rewrite traverseInOrder_eq. simpl val; simpl left; simpl right.
  destruct reverse.
  - rewrite rev_app_distr. simpl rev. rewrite <- app_assoc. simpl app.
    rewrite fold_left_app. simpl fold_left.
    destruct r as [c|], l as [d|]; simpl in *;
      rewrite ?IHl, ?IHr; reflexivity.
  - rewrite fold_left_app. simpl fold_left.
    destruct r as [c|], l as [d|]; simpl in *;
      rewrite ?IHl, ?IHr; reflexivity.
Qed.

Lemma traverseInOrder_fold {S : Type} (visit : Node -> S -> S)
    (reverse : bool) (p : option Node) (s : S) :
  traverseInOrder p reverse visit s =
  fold_left (fun acc m => visit m acc)
    (if reverse then rev (nodesOf p) else nodesOf p) s.
Proof.
  destruct p as [n|]; simpl.
  - apply traverseNode_fold.
  - now destruct reverse.
Qed.

Lemma Traverse_fold {S : Type} (visit : Node -> S -> S)
    (reverse : bool) (t : Tree) (s : S) :
  Traverse t reverse visit s =
  fold_left (fun acc m => visit m acc)
    (if reverse then rev (nodesOf (root t)) else nodesOf (root t)) s.
Proof.
  unfold Traverse. destruct (root t) as [n|] eqn:E.
  - apply traverseInOrder_fold.
  - now destruct reverse.
Qed.

Lemma fold_left_snoc {A : Type} (l acc : list A) :
  fold_left (fun a m => a ++ [m]) l acc = acc ++ l.
Proof.
  revert acc. induction l as [|x l IH]; intros acc; simpl.
  - now rewrite app_nil_r.
  - rewrite IH, <- app_assoc. reflexivity.
Qed.

Lemma visited_nodes (t : Tree) (reverse : bool) :
  visited t reverse =
  if reverse then rev (nodesOf (root t)) else nodesOf (root t).
Proof.
  unfold visited. rewrite Traverse_fold, fold_left_snoc. reflexivity.
Qed.

Lemma output_records (t : Tree) (reverse : bool) :
  output t reverse =
  if reverse then rev (records (root t)) else records (root t).
Proof.
  unfold output, records. rewrite visited_nodes.
  destruct reverse; [apply map_rev | reflexivity].
Qed.

(** ** Fields and their order *)

Lemma fieldAt_in_range (i : N) (r : Record) :
  (i < N.of_nat (List.length r))%N ->
  exists f, fieldAt i r = Some f /\ nth (N.to_nat i) r EmptyString = f.
Proof.
  intros H. unfold fieldAt.
  assert (L : N.to_nat i < List.length r) by lia.
  destruct (nth_error r (N.to_nat i)) as [f|] eqn:E.
  - exists f. split; [reflexivity|]. now apply nth_error_nth.
  - apply nth_error_None in E. lia.
Qed.

Lemma fieldAt_range (i : N) (r : Record) (f : string) :
  fieldAt i r = Some f -> (i < N.of_nat (List.length r))%N.
Proof.
  unfold fieldAt. intros E.
  assert (N.to_nat i < List.length r)
    by (apply nth_error_Some; congruence).
  lia.
Qed.

Lemma fieldCmp_less (i : N) (a b : Record) :
  (i < N.of_nat (List.length a))%N -> (i < N.of_nat (List.length b))%N ->
  fieldCmp i a b = Done (less i a b).
Proof.
  intros Ha Hb.
  destruct (fieldAt_in_range i a Ha) as (fa & Ea & Na).
  destruct (fieldAt_in_range i b Hb) as (fb & Eb & Nb).
  unfold fieldCmp, index, less. unfold fieldAt in Ea, Eb.
  rewrite Ea, Eb, Na, Nb. reflexivity.
Qed.

Lemma less_fieldLt (i : N) (a b : Record) :
  (i < N.of_nat (List.length a))%N -> (i < N.of_nat (List.length b))%N ->
  less i a b = true -> fieldLt i a b.
Proof.
  intros Ha Hb.
  destruct (fieldAt_in_range i a Ha) as (fa & Ea & Na).
  destruct (fieldAt_in_range i b Hb) as (fb & Eb & Nb).
  unfold less. rewrite Na, Nb. intros L. now exists fa, fb.
Qed.

Lemma not_less_fieldLe (i : N) (a b : Record) :
  (i < N.of_nat (List.length a))%N -> (i < N.of_nat (List.length b))%N ->
  less i a b = false -> fieldLe i b a.
Proof.
  intros Ha Hb.
  destruct (fieldAt_in_range i a Ha) as (fa & Ea & Na).
  destruct (fieldAt_in_range i b Hb) as (fb & Eb & Nb).
  unfold less. rewrite Na, Nb. intros L. now exists fb, fa.
Qed.


(** Not above means equal or strictly below. *)
Lemma fieldLe_cases (i : N) (a b : Record) :
  fieldLe i a b ->
  (exists f, fieldAt i a = Some f /\ fieldAt i b = Some f) \/ fieldLt i a b.
Proof.
  intros (fa & fb & Ea & Eb & L).
  destruct (StrOrder.ltb_false_cases fb fa L) as [->|L'].
  - left. now exists fa.
  - right. now exists fa, fb.
Qed.

Lemma fieldLt_le_trans (i : N) (a b c : Record) :
  fieldLt i a b -> fieldLe i b c -> fieldLe i a c.
Proof.
  intros (fa & fb & Ea & Eb & L) (fb' & fc & Eb' & Ec & L').
  assert (fb' = fb) by congruence. subst fb'.
  exists fa, fc. repeat split; trivial.
  destruct (String.ltb fc fa) eqn:E; [|reflexivity].
  rewrite (StrOrder.ltb_trans _ _ _ E L) in L'. discriminate.
Qed.

Lemma fieldLt_keyIs (i : N) (k : string) (a b : Record) :
  fieldLt i a b -> keyIs i k a = true -> keyIs i k b = false.
Proof.
  intros (fa & fb & Ea & Eb & L). unfold keyIs. rewrite Ea, Eb.
  intros K. apply String.eqb_eq in K. subst fa.
  destruct (String.eqb fb k) eqn:E; [|reflexivity].
  apply String.eqb_eq in E. subst fb.
  rewrite StrOrder.ltb_irrefl in L. discriminate.
Qed.

Lemma fieldLt_le_keyIs (i : N) (k : string) (a b c : Record) :
  fieldLt i a b -> fieldLe i b c -> keyIs i k a = true -> keyIs i k c = false.
Proof.
  intros (fa & fb & Ea & Eb & L) (fb' & fc & Eb' & Ec & L').
  assert (fb' = fb) by congruence. subst fb'.
  unfold keyIs. rewrite Ea, Ec.
  intros K. apply String.eqb_eq in K. subst fa.
  destruct (String.eqb fc k) eqn:E; [|reflexivity].
  apply String.eqb_eq in E. subst fc. congruence.
Qed.

(** ** Insertion *)

Lemma insert_eq (v : Record) (l r : option Node) (value : Record)
    (cmp : Comparator) :
  insert (mkNode v l r) value cmp =
  (less <- cmp value v ;;
   if less then
     match l with
     | None => Done (mkNode v (Some (leaf value)) r)
     | Some c => l' <- insert c value cmp ;; Done (mkNode v (Some l') r)
     end
   else
     match r with
     | None => Done (mkNode v l (Some (leaf value)))
     | Some c => r' <- insert c value cmp ;; Done (mkNode v l (Some r'))
     end).
Proof. reflexivity. Qed.

Lemma descendNode_eq (i : N) (value v : Record) (l r : option Node) :
  descendNode i value (mkNode v l r) =
  if less i value v then mkNode v (Some (descend i value l)) r
  else mkNode v l (Some (descend i value r)).
Proof. destruct l, r; reflexivity. Qed.

(** The root of a subtree keeps its record. *)
Lemma insert_val (n n' : Node) (value : Record) (cmp : Comparator) :
  insert n value cmp = Done n' -> val n' = val n.
Proof.
  destruct n as [v l r]. rewrite insert_eq.
  destruct (cmp value v) as [[|]| |]; simpl; try discriminate.
  - destruct l as [c|]; [destruct (insert c value cmp)|]; simpl;
      intros E; inversion E; reflexivity.
  - destruct r as [c|]; [destruct (insert c value cmp)|]; simpl;
      intros E; inversion E; reflexivity.
Qed.

Section Descent.

Variable i : N.
Variable value : Record.

Lemma records_descendNode :
  forall n : Node,
    Permutation (records (Some (descendNode i value n)))
                (records (Some n) ++ [value]).
Proof.
  induction n as [v l r IHl IHr] using Node_ptr_ind.
  rewrite descendNode_eq.
  destruct (less i value v); rewrite !records_node.
  - assert (P : Permutation (records (Some (descend i value l)))
                            (records l ++ [value])).
    { destruct l as [c|]; simpl in *; [apply IHl | reflexivity]. }
    rewrite P, <- !app_assoc. apply Permutation_app_head.
    simpl. rewrite app_comm_cons. apply Permutation_cons_append.
  - assert (P : Permutation (records (Some (descend i value r)))
                            (records r ++ [value])).
    { destruct r as [c|]; simpl in *; [apply IHr | reflexivity]. }
    rewrite P, <- app_assoc. reflexivity.
Qed.

Lemma in_records_descendNode (n : Node) (x : Record) :
  In x (records (Some (descendNode i value n))) ->
  In x (records (Some n)) \/ x = value.
Proof.
  intros H. apply (Permutation_in _ (records_descendNode n)) in H.
  apply in_app_or in H. destruct H as [H|[H|[]]]; auto.
Qed.

Lemma in_records_descend (p : option Node) (x : Record) :
  In x (records (Some (descend i value p))) -> In x (records p) \/ x = value.
Proof.
  destruct p as [n|]; simpl.
  - apply in_records_descendNode.
  - intros [H|[]]; auto.
Qed.

Lemma size_descendNode :
  forall n : Node, size (descendNode i value n) = S (size n).
Proof.
  induction n as [v l r IHl IHr] using Node_ptr_ind.
  rewrite descendNode_eq. destruct (less i value v).
  - destruct l as [c|], r as [d|]; simpl in *; rewrite ?IHl; lia.
  - destruct l as [c|], r as [d|]; simpl in *; rewrite ?IHr; lia.
Qed.

Hypothesis value_ok : (i < N.of_nat (List.length value))%N.

(** On records that have the sort field the Go insertion returns, and it
    is the descent of the specification. *)
Lemma insert_descend :
  forall n : Node,
    Forall (inRange i) (records (Some n)) ->
    insert n value (fieldCmp i) = Done (descendNode i value n).
Proof.
  induction n as [v l r IHl IHr] using Node_ptr_ind. intros F.
  rewrite records_node in F. apply Forall_app in F. destruct F as [Fl F].
  inversion F as [|? ? Hv Fr]; subst.
  rewrite insert_eq, descendNode_eq, (fieldCmp_less i value v value_ok Hv).
  simpl bind. destruct (less i value v).
  - destruct l as [c|]; simpl in *; [|reflexivity].
    now rewrite (IHl Fl).
  - destruct r as [c|]; simpl in *; [|reflexivity].
    now rewrite (IHr Fr).
Qed.

(** The descent keeps the search-tree invariant. *)
Lemma BST_descendNode :
  forall n : Node,
    Forall (inRange i) (records (Some n)) ->
    BST i n -> BST i (descendNode i value n).
Proof.
  induction n as [v l r IHl IHr] using Node_ptr_ind. intros F B.
  rewrite records_node in F. apply Forall_app in F. destruct F as [Fl F].
  inversion F as [|? ? Hv Fr]; subst.
  destruct B as (Bl & Br & Sl & Sr). simpl in Bl, Br.
  rewrite descendNode_eq. destruct (less i value v) eqn:L.
  - simpl. repeat split; trivial.
    + intros x Hx. apply in_records_descend in Hx.
      destruct Hx as [Hx| ->]; [now apply Bl|].
      now apply less_fieldLt.
    + destruct l as [c|]; simpl in *; [now apply IHl|].
      repeat split; trivial; intros x [].
  - simpl. repeat split; trivial.
    + intros x Hx. apply in_records_descend in Hx.
      destruct Hx as [Hx| ->]; [now apply Br|].
      now apply not_less_fieldLe.
    + destruct r as [c|]; simpl in *; [now apply IHr|].
      repeat split; trivial; intros x [].
Qed.

Lemma filter_none {A : Type} (f : A -> bool) (l : list A) :
  (forall x, In x l -> f x = false) -> filter f l = [].
Proof.
  induction l as [|a l IH]; intros H; simpl; [reflexivity|].
  rewrite (H a (or_introl eq_refl)). apply IH.
  intros x Hx. apply H. now right.
Qed.

(** Among the records with one key the new record comes last. *)
Lemma filter_descendNode (k : string) :
  forall n : Node,
    Forall (inRange i) (records (Some n)) ->
    BST i n ->
    filter (keyIs i k) (records (Some (descendNode i value n))) =
    filter (keyIs i k) (records (Some n)) ++ filter (keyIs i k) [value].
Proof.
  induction n as [v l r IHl IHr] using Node_ptr_ind. intros F B.
  rewrite records_node in F. apply Forall_app in F. destruct F as [Fl F].
  inversion F as [|? ? Hv Fr]; subst.
  destruct B as (Bl & Br & Sl & Sr). simpl in Bl, Br.
  rewrite descendNode_eq. destruct (less i value v) eqn:L.
  - rewrite !records_node, !filter_app.
    assert (E : filter (keyIs i k) (records (Some (descend i value l))) =
                filter (keyIs i k) (records l) ++ filter (keyIs i k) [value]).
    { destruct l as [c|]; simpl in *; [now apply IHl | reflexivity]. }
    rewrite E, <- !app_assoc. f_equal.
    destruct (keyIs i k value) eqn:K.
    + assert (Z : filter (keyIs i k) (v :: records r) = []).
      { apply filter_none. intros x [<-|Hx].
        - apply (fieldLt_keyIs i k value); trivial.
          now apply less_fieldLt.
        - apply (fieldLt_le_keyIs i k value v); trivial.
          + now apply less_fieldLt.
          + now apply Br. }
      rewrite Z. simpl. rewrite K. reflexivity.
    + simpl. rewrite K. now rewrite app_nil_r.
  - rewrite !records_node, !filter_app.
    assert (E : filter (keyIs i k) (records (Some (descend i value r))) =
                filter (keyIs i k) (records r) ++ filter (keyIs i k) [value]).
    { destruct r as [c|]; simpl in *; [now apply IHr | reflexivity]. }
    change (v :: records (Some (descend i value r)))
      with ([v] ++ records (Some (descend i value r))).
    change (v :: records r) with ([v] ++ records r).
    rewrite !filter_app, E, <- !app_assoc. reflexivity.
Qed.

End Descent.

(** ** Sorted sequences *)




(** ** [Tree.Insert] *)

Lemma Insert_empty (t : Tree) (value : Record) :
  root t = None ->
  Insert t value = Done (mkTree (sortIndex t) (Some (leaf value))).
Proof. unfold Insert. now intros ->. Qed.

Lemma Insert_index_fatal (t : Tree) (rt : Node) (value : Record) :
  root t = Some rt ->
  (N.of_nat (List.length value) <= sortIndex t)%N ->
  Insert t value = Fatal IndexOutOfRange.
Proof.
  unfold Insert. intros -> H.
  apply N.leb_le in H. now rewrite H.
Qed.

Lemma Insert_length_fatal (t : Tree) (rt : Node) (value : Record) :
  root t = Some rt ->
  (sortIndex t < N.of_nat (List.length value))%N ->
  List.length value <> List.length (val rt) ->
  Insert t value = Fatal (InvalidRecordLength (List.length value)).
Proof.
  unfold Insert. intros -> H D.
  apply N.leb_gt in H. rewrite H.
  apply Nat.eqb_neq in D. now rewrite D.
Qed.

Lemma Insert_checked (t : Tree) (rt : Node) (value : Record) :
  root t = Some rt ->
  (sortIndex t < N.of_nat (List.length value))%N ->
  List.length value = List.length (val rt) ->
  Insert t value =
  (rt' <- insert rt value (fieldCmp (sortIndex t)) ;;
   Done (mkTree (sortIndex t) (Some rt'))).
Proof.
  unfold Insert. intros -> H D.
  apply N.leb_gt in H. rewrite H.
  apply Nat.eqb_eq in D. now rewrite D.
Qed.

(** A record of another arity than the root's is refused, with one of the
    two diagnostics. *)
Lemma Insert_mismatch (t : Tree) (rt : Node) (value : Record) :
  root t = Some rt ->
  List.length value <> List.length (val rt) ->
  Insert t value = Fatal IndexOutOfRange \/
  Insert t value = Fatal (InvalidRecordLength (List.length value)).
Proof.
  intros E D.
  destruct (N.le_gt_cases (N.of_nat (List.length value)) (sortIndex t)).
  - left. now apply (Insert_index_fatal t rt).
  - right. now apply (Insert_length_fatal t rt).
Qed.

Lemma Insert_Done_inv (t t' : Tree) (rt : Node) (value : Record) :
  root t = Some rt ->
  Insert t value = Done t' ->
  (sortIndex t < N.of_nat (List.length value))%N /\
  List.length value = List.length (val rt).
Proof.
  intros E H.
  destruct (N.le_gt_cases (N.of_nat (List.length value)) (sortIndex t))
    as [L|L].
  - rewrite (Insert_index_fatal t rt value E L) in H. discriminate.
  - split; [assumption|].
    destruct (Nat.eq_dec (List.length value) (List.length (val rt)))
      as [D|D]; [assumption|].
    rewrite (Insert_length_fatal t rt value E L D) in H. discriminate.
Qed.

Lemma records_descend (i : N) (value : Record) (p : option Node) :
  Permutation (records (Some (descend i value p))) (records p ++ [value]).
Proof.
  destruct p as [n|]; simpl; [apply records_descendNode | reflexivity].
Qed.

Lemma size_descend (i : N) (value : Record) (p : option Node) :
  size (descend i value p) = S (sizeOf p).
Proof.
  destruct p as [n|]; [apply size_descendNode | reflexivity].
Qed.

Lemma val_descendNode (i : N) (value : Record) (n : Node) :
  val (descendNode i value n) = val n.
Proof.
  destruct n as [v l r]. rewrite descendNode_eq.
  now destruct (less i value v).
Qed.

Lemma arityOK_in_range (i : N) (p : option Node) :
  arityOK i p -> Forall (inRange i) (records p).
Proof.
  destruct p as [rt|]; simpl; [|constructor].
  intros [H F]. revert F. apply Forall_impl.
  intros r E. unfold inRange. now rewrite E.
Qed.

Lemma filter_descend (i : N) (value : Record) (k : string)
    (p : option Node) :
  inRange i value -> arityOK i p -> on_ptr (BST i) p ->
  filter (keyIs i k) (records (Some (descend i value p))) =
  filter (keyIs i k) (records p) ++ filter (keyIs i k) [value].
Proof.
  intros V A B. destruct p as [n|]; simpl in B |- *; [|reflexivity].
  apply filter_descendNode; trivial.
  now apply (arityOK_in_range i (Some n)).
Qed.

(** Trees that [Tree.Insert] accepts records into. *)
Lemma Good_descend (i : N) (t : Tree) (value : Record) :
  Good i t -> inRange i value ->
  schema (List.length value) (root t) ->
  Good i (mkTree i (Some (descend i value (root t)))).
Proof.
  intros (Ei & A & B) V Sc. split; [reflexivity|].
  destruct (root t) as [rt|]; simpl in *.
  - destruct A as [Hi F]. repeat split.
    + now rewrite val_descendNode.
    + rewrite val_descendNode.
      assert (P := records_descendNode i value rt).
      apply Permutation_sym in P.
      apply (Permutation_Forall P).
      apply Forall_app. split; [exact F|].
      constructor; [now symmetry | constructor].
    + apply BST_descendNode; trivial.
      now apply (arityOK_in_range i (Some rt)).
  - repeat split; trivial; try (intros x []).
    repeat constructor.
Qed.

Lemma Insert_Good (i : N) (t : Tree) (value : Record) :
  Good i t -> inRange i value ->
  schema (List.length value) (root t) ->
  Insert t value = Done (mkTree i (Some (descend i value (root t)))).
Proof.
  intros (Ei & A & B) V Sc. subst i.
  destruct (root t) as [rt|] eqn:E; simpl in *.
  - rewrite (Insert_checked t rt value E V (eq_sym Sc)).
    rewrite insert_descend; trivial.
    now apply (arityOK_in_range (sortIndex t) (Some rt)).
  - now apply Insert_empty.
Qed.

(** The only result of a successful [Tree.Insert] into a tree that holds a
    record with the sort field. *)
Lemma Insert_Good_inv (i : N) (t t' : Tree) (rt : Node) (value : Record) :
  Good i t -> root t = Some rt ->
  Insert t value = Done t' ->
  t' = mkTree i (Some (descend i value (root t))) /\ Good i t'.
Proof.
  intros G E H. assert (Ei : sortIndex t = i) by apply G.
  destruct (Insert_Done_inv t t' rt value E H) as [V L].
  rewrite Ei in V.
  assert (Sc : schema (List.length value) (root t))
    by (rewrite E; simpl; congruence).
  rewrite (Insert_Good i t value G V Sc) in H. inversion H; subst t'.
  split; [reflexivity|]. now apply Good_descend.
Qed.

(** ** [BuildTreeFromStream] *)

Lemma Build_app (t : Tree) (l1 l2 : list Record) :
  BuildTreeFromStream t (l1 ++ l2) =
  (t' <- BuildTreeFromStream t l1 ;; BuildTreeFromStream t' l2).
Proof.
  revert t. induction l1 as [|r l1 IH]; intros t; simpl; [reflexivity|].
  destruct (Insert t r) as [t1| |]; simpl; [apply IH | reflexivity..].
Qed.

Lemma Build_fatal_head (t : Tree) (value : Record) (rest : list Record)
    (d : Diagnostic) :
  Insert t value = Fatal d -> BuildTreeFromStream t (value :: rest) = Fatal d.
Proof. simpl. now intros ->. Qed.

(** The first record stays at the root. *)
Lemma Insert_root_val (t t' : Tree) (rt : Node) (value : Record) :
  root t = Some rt -> Insert t value = Done t' ->
  sortIndex t' = sortIndex t /\
  exists rt', root t' = Some rt' /\ val rt' = val rt.
Proof.
  intros E H.
  destruct (Insert_Done_inv t t' rt value E H) as [V L].
  rewrite (Insert_checked t rt value E V L) in H.
  destruct (insert rt value (fieldCmp (sortIndex t))) as [rt'| |] eqn:I;
    simpl in H; try discriminate.
  inversion H; subst t'. simpl. split; [reflexivity|].
  exists rt'. split; [reflexivity|]. now apply insert_val in I.
Qed.

Lemma Build_root_val :
  forall (rs : list Record) (t t' : Tree) (rt : Node),
    root t = Some rt -> BuildTreeFromStream t rs = Done t' ->
    sortIndex t' = sortIndex t /\
    exists rt', root t' = Some rt' /\ val rt' = val rt.
Proof.
  induction rs as [|r rs IH]; intros t t' rt E H; simpl in H.
  - inversion H; subst t'. split; [reflexivity|]. now exists rt.
  - destruct (Insert t r) as [t1| |] eqn:I; simpl in H; try discriminate.
    destruct (Insert_root_val t t1 rt r E I) as (S1 & rt1 & E1 & V1).
    destruct (IH t1 t' rt1 E1 H) as (S2 & rt' & E' & V').
    split; [congruence|]. exists rt'. split; [assumption | congruence].
Qed.

Lemma val_descend (i : N) (value : Record) (p : option Node) :
  val (descend i value p) =
  match p with
  | None => value
  | Some rt => val rt
  end.
Proof. destruct p as [rt|]; [apply val_descendNode | reflexivity]. Qed.

(** Records of one arity that have the sort field all go in. *)
Lemma Build_Good (i : N) (a : nat) :
  (i < N.of_nat a)%N ->
  forall (rs : list Record) (t : Tree),
    Forall (fun r => List.length r = a) rs ->
    Good i t -> schema a (root t) ->
    exists t',
      BuildTreeFromStream t rs = Done t' /\
      Good i t' /\
      Permutation (records (root t')) (records (root t) ++ rs) /\
      (forall k, filter (keyIs i k) (records (root t')) =
                 filter (keyIs i k) (records (root t)) ++
                 filter (keyIs i k) rs) /\
      sizeOf (root t') = sizeOf (root t) + List.length rs.
Proof.
  intros Hi. induction rs as [|r rs IH]; intros t F G Sc.
  - exists t. simpl. rewrite !app_nil_r, Nat.add_0_r.
    conjs; trivial. intros k. now rewrite app_nil_r.
  - inversion F as [|? ? Lr Frs]; subst.
    assert (V : inRange i r) by exact Hi.
    assert (Sr : schema (List.length r) (root t)).
    { destruct (root t); simpl in *; congruence. }
    pose (t1 := mkTree i (Some (descend i r (root t)))).
    assert (G1 : Good i t1) by now apply Good_descend.
    assert (S1 : schema (List.length r) (root t1)).
    { simpl. rewrite val_descend. destruct (root t); simpl in *; congruence. }
    destruct (IH t1 Frs G1 S1) as (t' & B & G' & P & K & Z).
    exists t'. simpl BuildTreeFromStream.
    rewrite (Insert_Good i t r G V Sr). simpl bind. fold t1.
    conjs; trivial.
    + rewrite P. simpl root. rewrite (records_descend i r (root t)).
      rewrite <- app_assoc. reflexivity.
    + intros k. rewrite K. simpl root.
      rewrite (filter_descend i r k (root t) V); try apply G.
      change (r :: rs) with ([r] ++ rs).
      rewrite filter_app, <- app_assoc. reflexivity.
    + rewrite Z. simpl root. simpl sizeOf at 1.
      rewrite size_descend. simpl. lia.
Qed.

(** What a finished build from the empty tree can look like. *)
Lemma Build_sound (i : N) :
  forall (rs : list Record) (t t' : Tree) (rt : Node),
    Good i t -> root t = Some rt ->
    BuildTreeFromStream t rs = Done t' -> Good i t'.
Proof.
  induction rs as [|r rs IH]; intros t t' rt G E H; simpl in H.
  - now inversion H; subst.
  - destruct (Insert t r) as [t1| |] eqn:I; simpl in H; try discriminate.
    destruct (Insert_Good_inv i t t1 rt r G E I) as [E1 G1].
    apply (IH t1 t' (descend i r (root t))); trivial.
    now rewrite E1.
Qed.

Lemma Insert_short_root (t : Tree) (rt : Node) (value : Record) :
  root t = Some rt -> ~ inRange (sortIndex t) (val rt) ->
  exists d, Insert t value = Fatal d.
Proof.
  intros E H. unfold inRange in H.
  destruct (N.le_gt_cases (N.of_nat (List.length value)) (sortIndex t))
    as [L|L].
  - eexists. now apply (Insert_index_fatal t rt).
  - eexists. apply (Insert_length_fatal t rt); trivial. lia.
Qed.

Lemma Good_leaf (i : N) (value : Record) :
  inRange i value -> Good i (mkTree i (Some (leaf value))).
Proof.
  intros V. repeat split; simpl; trivial; try (intros x []).
  repeat constructor.
Qed.

Lemma Build_cases (i : N) (rs : list Record) (t : Tree) :
  BuildTreeFromStream (NewTree i) rs = Done t ->
  t = NewTree i \/
  (exists r, t = mkTree i (Some (leaf r)) /\ ~ inRange i r) \/
  (Good i t /\ root t <> None).
Proof.
  destruct rs as [|r rs]; simpl; intros H.
  - left. now inversion H.
  - right. set (t1 := mkTree i (Some (leaf r))) in *.
    assert (D : inRange i r \/ ~ inRange i r) by (unfold inRange; lia).
    destruct D as [V|V].
    + right.
      destruct (Build_root_val rs t1 t (leaf r) eq_refl H)
        as (_ & rt' & E' & _).
      split; [|congruence].
      apply (Build_sound i rs t1 t (leaf r)); trivial.
      now apply Good_leaf.
    + left. exists r. split; [|assumption].
      destruct rs as [|r' rs]; simpl in H; [now inversion H|].
      destruct (Insert_short_root t1 (leaf r) r' eq_refl V) as [d Hd].
      rewrite Hd in H. discriminate.
Qed.

(** ** Splitting lines *)






(** ** The writer *)

Lemma fold_left_val {W : Type} (f : W -> Record -> W) (l : list Node)
    (w : W) :
  fold_left (fun acc m => f acc (val m)) l w = fold_left f (map val l) w.
Proof.
  revert w. induction l as [|m l IH]; intros w; simpl; [reflexivity|].
  apply IH.
Qed.


Lemma Good_NewTree (i : N) : Good i (NewTree i).
Proof. repeat split. Qed.

(** ** The properties of the specification *)



(** C2: every tree built from the empty tree by [Tree.Insert] is a search
    tree on the sort field (strictly smaller to the left, equal or greater
    to the right), and an insertion into it descends by comparing on the
    sort field, left on strictly less and right otherwise, and hangs the
    record as a new leaf in the first missing child slot. *)
Theorem insert_keeps_search_tree (i : N) (rs : list Record) (t : Tree) :
  BuildTreeFromStream (NewTree i) rs = Done t ->
  on_ptr (BST i) (root t) /\
  (forall value,
     inRange i value -> schema (List.length value) (root t) ->
     Insert t value = Done (mkTree i (Some (descend i value (root t))))) /\
  (forall value t',
     Insert t value = Done t' ->
     t' = mkTree i (Some (descend i value (root t)))).
Proof.
  intros H. destruct (Build_cases i rs t H) as [E|[(r & E & V)|[G NE]]].
  - subst t. simpl. conjs; trivial.
    intros value t' H'. rewrite Insert_empty in H' by reflexivity.
    now inversion H'.
  - subst t. split; [|split].
    + simpl. conjs; trivial; intros x [].
    + intros value V' Sc. unfold inRange, schema in *. simpl in Sc.
      rewrite Sc in V. contradiction.
    + intros value t' H'.
      destruct (Insert_short_root (mkTree i (Some (leaf r))) (leaf r) value
                  eq_refl V) as [d Hd].
      rewrite Hd in H'. discriminate.
  - split; [|split].
    + apply G.
    + intros value V Sc. now apply Insert_Good.
    + intros value t' H'. destruct (root t) as [rt|] eqn:E; [|congruence].
      rewrite <- E.
      now destruct (Insert_Good_inv i t t' rt value G E H').
Qed.

Lemma insert_keeps_search_tree_witness :
  let t := mkTree 1 (Some (mkNode ["x"; "m"]
                             (Some (leaf ["y"; "c"]))
                             (Some (leaf ["z"; "m"])))) in
  on_ptr (BST 1) (root t) /\
  (forall value,
     inRange 1 value -> schema (List.length value) (root t) ->
     Insert t value = Done (mkTree 1 (Some (descend 1 value (root t))))) /\
  (forall value t',
     Insert t value = Done t' ->
     t' = mkTree 1 (Some (descend 1 value (root t)))).
Proof.
  apply (insert_keeps_search_tree 1 [["x"; "m"]; ["y"; "c"]; ["z"; "m"]]).
  reflexivity.
Defined.

(** C3, as the specification has it, at the empty tree: a record without
    the sort field is taken as the root, nothing is fatal. *)
Lemma insert_short_into_empty_not_fatal :
  (N.of_nat (List.length ["a"]) <= sortIndex (NewTree 5))%N /\
  Insert (NewTree 5) ["a"] = Done (mkTree 5 (Some (leaf ["a"]))) /\
  ~ (exists d, Insert (NewTree 5) ["a"] = Fatal d).
Proof.
  conjs.
  - vm_compute. discriminate.
  - reflexivity.
  - intros [d H]. discriminate H.
Qed.

(** C3, amended: for every non-empty tree and every record whose arity is at
    most the sort index, [Tree.Insert] is fatal with the diagnostic of the
    index check; the record is not inserted and nothing after it is
    processed. *)
Theorem insert_short_record_fatal (t : Tree) (rt : Node) (value : Record)
    (rest : list Record) :
  root t = Some rt ->
  (N.of_nat (List.length value) <= sortIndex t)%N ->
  Insert t value = Fatal IndexOutOfRange /\
  BuildTreeFromStream t (value :: rest) = Fatal IndexOutOfRange.
Proof.
  intros E H.
  assert (F := Insert_index_fatal t rt value E H).
  split; [assumption | now apply Build_fatal_head].
Qed.

Lemma insert_short_record_fatal_witness :
  Insert (mkTree 2 (Some (leaf ["a"; "b"; "c"]))) ["d"; "e"]
    = Fatal IndexOutOfRange /\
  BuildTreeFromStream (mkTree 2 (Some (leaf ["a"; "b"; "c"])))
    [["d"; "e"]; ["f"; "g"; "h"]] = Fatal IndexOutOfRange.
Proof.
  apply (insert_short_record_fatal _ (leaf ["a"; "b"; "c"])).
  - reflexivity.
  - vm_compute. discriminate.
Defined.

(** C4: once a first record is in the tree, inserting a record with another
    number of fields is fatal; the record is not inserted and the run ends
    there, whatever records follow. *)
Theorem insert_other_arity_fatal (i : N) (r0 : Record) (rs : list Record)
    (t : Tree) (value : Record) (rest : list Record) :
  BuildTreeFromStream (NewTree i) (r0 :: rs) = Done t ->
  List.length value <> List.length r0 ->
  (Insert t value = Fatal IndexOutOfRange \/
   Insert t value = Fatal (InvalidRecordLength (List.length value))) /\
  (exists d,
     BuildTreeFromStream (NewTree i) ((r0 :: rs) ++ value :: rest)
     = Fatal d).
Proof.
  intros H D.
  assert (H' := H). simpl in H'.
  destruct (Build_root_val rs (mkTree i (Some (leaf r0))) t (leaf r0)
              eq_refl H') as (_ & rt & E & V).
  simpl in V. rewrite <- V in D.
  assert (M := Insert_mismatch t rt value E D).
  split; [assumption|].
  rewrite Build_app, H. simpl bind.
  destruct M as [M|M]; eexists; apply Build_fatal_head; exact M.
Qed.

Lemma insert_other_arity_fatal_witness :
  (Insert (mkTree 0 (Some (mkNode ["b"; "2"] (Some (leaf ["a"; "1"])) None)))
     ["c"; "3"; "x"] = Fatal IndexOutOfRange \/
   Insert (mkTree 0 (Some (mkNode ["b"; "2"] (Some (leaf ["a"; "1"])) None)))
     ["c"; "3"; "x"] = Fatal (InvalidRecordLength 3)) /\
  (exists d,
     BuildTreeFromStream (NewTree 0)
       ([["b"; "2"]; ["a"; "1"]] ++ ["c"; "3"; "x"] :: [["d"; "4"]])
     = Fatal d).
Proof.
  apply (insert_other_arity_fatal 0 ["b"; "2"] [["a"; "1"]]).
  - reflexivity.
  - simpl. lia.
Defined.

(** C5: building a tree from records of one arity that raise no error
    (the sort index is within the arity, or there is at most one record)
    loses and duplicates nothing: the tree has as many nodes as there were
    records, and the in-order walk visits the inserted records, each as
    often as it was inserted. *)
Theorem build_keeps_all_records (i : N) (a : nat) (rs : list Record) :
  Forall (fun r => List.length r = a) rs ->
  (i < N.of_nat a)%N \/ List.length rs <= 1 ->
  exists t,
    BuildTreeFromStream (NewTree i) rs = Done t /\
    sizeOf (root t) = List.length rs /\
    List.length (visited t false) = List.length rs /\
    Permutation (output t false) rs.
Proof.
  intros F [Hi|Hn].
  - destruct (Build_Good i a Hi rs (NewTree i) F (Good_NewTree i) I)
      as (t & B & _ & P & _ & Z).
    exists t. simpl in P, Z.
    assert (L : List.length (visited t false) = List.length rs).
    { rewrite <- (Permutation_length P). unfold records.
      rewrite visited_nodes, length_map. reflexivity. }
    rewrite output_records. conjs; trivial.
  - destruct rs as [|r [|r' rs]]; simpl in Hn; try lia.
    + exists (NewTree i). conjs; reflexivity.
    + exists (mkTree i (Some (leaf r))). conjs; reflexivity.
Qed.

Lemma build_keeps_all_records_witness :
  exists t,
    BuildTreeFromStream (NewTree 1)
      [["k"; "b"]; ["k"; "a"]; ["k"; "b"]] = Done t /\
    sizeOf (root t) = 3 /\
    List.length (visited t false) = 3 /\
    Permutation (output t false) [["k"; "b"]; ["k"; "a"]; ["k"; "b"]].
Proof.
  apply (build_keeps_all_records 1 2).
  - repeat constructor.
  - left. reflexivity.
Defined.



(** C7, as the specification has it, on a destination that takes one
    record: the second [Write] fails, [WriteTree] still hands the third
    record to the writer, flushes and returns; nothing is fatal. *)
Lemma write_failure_not_fatal :
  let t := mkTree 0 (Some (mkNode ["b"] (Some (leaf ["a"]))
                                        (Some (leaf ["c"])))) in
  let w0 := mkSink [] [] 0 in
  let w1 := fst (Write (boundedOps 1) w0 ["a"]) in
  output t false = [["a"]; ["b"]; ["c"]] /\
  snd (Write (boundedOps 1) w1 ["b"]) = true /\
  WriteTree (boundedOps 1) t w0 false
    = Done (mkSink [["a"]] [["a"]; ["b"]; ["c"]] 1) /\
  ~ (exists d, WriteTree (boundedOps 1) t w0 false = Fatal d).
Proof.
  cbv zeta. conjs; try reflexivity.
  intros [d H]. discriminate H.
Qed.

(** C7, amended: [WriteTree] hands every visited record to the writer in
    the order of the walk, whatever the earlier writes returned, flushes
    once after the last record, and returns; a write failure is not
    fatal. *)
Theorem write_tree_writes_all_then_flushes {W : Type} (ops : WriterOps W)
    (t : Tree) (w : W) (reverse : bool) :
  WriteTree ops t w reverse =
  Done (Flush ops
          (fold_left (fun acc r => fst (Write ops acc r))
                     (output t reverse) w)).
Proof.
  unfold WriteTree, output. rewrite Traverse_fold, visited_nodes.
  now rewrite (fold_left_val (fun acc r => fst (Write ops acc r))).
Qed.

(** C8: the walk with [reverse] set visits exactly the nodes of the walk
    without it, in the opposite order. *)
Theorem reverse_walk_is_reversal (t : Tree) :
  visited t true = rev (visited t false).
Proof. now rewrite !visited_nodes. Qed.

(** C9: [Tree.Insert] into an empty tree checks nothing and cannot fail:
    whatever the sort index, the record becomes the root, and its number of
    fields is the arity that later records are held to; the index check and
    the arity check run on insertions into a non-empty tree only. *)
Theorem insert_into_empty_unchecked (i : N) (r : Record) :
  Insert (mkTree i None) r = Done (mkTree i (Some (leaf r))) /\
  (forall value rest,
     List.length value <> List.length r ->
     exists d,
       BuildTreeFromStream (mkTree i None) (r :: value :: rest) = Fatal d) /\
  (forall rt,
     ((N.of_nat (List.length r) <= i)%N ->
      Insert (mkTree i (Some rt)) r = Fatal IndexOutOfRange) /\
     ((i < N.of_nat (List.length r))%N ->
      List.length r <> List.length (val rt) ->
      Insert (mkTree i (Some rt)) r
      = Fatal (InvalidRecordLength (List.length r)))).
Proof.
  split; [reflexivity | split].
  - intros value rest D.
    destruct (Insert_mismatch (mkTree i (Some (leaf r))) (leaf r) value
                eq_refl D) as [M|M];
      eexists; simpl; rewrite M; reflexivity.
  - intros rt. split.
    + intros H.
      now apply (Insert_index_fatal (mkTree i (Some rt)) rt).
    + intros H D.
      now apply (Insert_length_fatal (mkTree i (Some rt)) rt).
Qed.

Lemma insert_into_empty_unchecked_witness :
  Insert (mkTree 7 None) ["a"; "b"]
    = Done (mkTree 7 (Some (leaf ["a"; "b"]))) /\
  (exists d,
     BuildTreeFromStream (mkTree 7 None)
       [["a"; "b"]; ["c"]; ["d"; "e"]] = Fatal d) /\
  Insert (mkTree 7 (Some (leaf ["x"; "y"]))) ["a"; "b"]
    = Fatal IndexOutOfRange.
Proof.
  destruct (insert_into_empty_unchecked 7 ["a"; "b"]) as (H1 & H2 & H3).
  split; [exact H1 | split].
  - apply H2. simpl. lia.
  - apply (H3 (leaf ["x"; "y"])). vm_compute. discriminate.
Defined.

(** C10: ties keep their order.  For records of one arity inserted with a
    sort index within it, the records that have a given string in the sort
    field are visited by the ascending walk in the order of their
    insertion, and by the descending walk in the opposite order. *)
Theorem ties_keep_insertion_order (i : N) (a : nat) (rs : list Record) :
  Forall (fun r => List.length r = a) rs ->
  (i < N.of_nat a)%N ->
  exists t,
    BuildTreeFromStream (NewTree i) rs = Done t /\
    forall k : string,
      filter (keyIs i k) (output t false) = filter (keyIs i k) rs /\
      filter (keyIs i k) (output t true) = rev (filter (keyIs i k) rs).
Proof.
  intros F Hi.
  destruct (Build_Good i a Hi rs (NewTree i) F (Good_NewTree i) I)
    as (t & B & _ & _ & K & _).
  exists t. split; [assumption|]. intros k.
  rewrite !output_records, filter_rev, K. split; reflexivity.
Qed.

Lemma ties_keep_insertion_order_witness :
  exists t,
    BuildTreeFromStream (NewTree 0)
      [["k"; "1"]; ["a"; "2"]; ["k"; "3"]; ["k"; "4"]] = Done t /\
    forall k : string,
      filter (keyIs 0 k) (output t false)
      = filter (keyIs 0 k)
          [["k"; "1"]; ["a"; "2"]; ["k"; "3"]; ["k"; "4"]] /\
      filter (keyIs 0 k) (output t true)
      = rev (filter (keyIs 0 k)
               [["k"; "1"]; ["a"; "2"]; ["k"; "3"]; ["k"; "4"]]).
Proof.
  apply (ties_keep_insertion_order 0 2).
  - repeat constructor.
  - reflexivity.
Defined.

(** ** Further properties of the walk *)

Lemma length_nodes : forall n : Node, List.length (nodes n) = size n.
Proof.
  induction n as [v l r IHl IHr] using Node_ptr_ind.
  change (nodes (mkNode v l r)) with (nodesOf (Some (mkNode v l r))).
  rewrite nodesOf_node, length_app.
  destruct l as [c|], r as [d|]; simpl in *; rewrite ?IHl, ?IHr; lia.
Qed.

Lemma length_nodesOf (p : option Node) :
  List.length (nodesOf p) = sizeOf p.
Proof. destruct p as [n|]; [apply length_nodes | reflexivity]. Qed.

(** X1: a walk, in either direction, calls the visitor once for each node of
    the tree; on the empty tree it does not call it. *)
Theorem walk_visits_each_node_once (t : Tree) (reverse : bool) :
  List.length (visited t reverse) = sizeOf (root t) /\
  Permutation (visited t reverse) (nodesOf (root t)).
Proof.
  rewrite visited_nodes. destruct reverse.
  - rewrite length_rev, length_nodesOf. split; [reflexivity|].
    apply Permutation_sym, Permutation_rev.
  - rewrite length_nodesOf. split; reflexivity.
Qed.


(** ** Further properties of the insertion *)

(** Whatever the comparator answers, an insertion that returns has put the
    record between two parts of the old sequence. *)
Lemma insert_splits (cmp : Comparator) (value : Record) :
  forall n n' : Node,
    insert n value cmp = Done n' ->
    size n' = S (size n) /\
    exists l1 l2,
      records (Some n) = l1 ++ l2 /\
      records (Some n') = l1 ++ value :: l2.
Proof.
  induction n as [v l r IHl IHr] using Node_ptr_ind. intros n'.
  rewrite insert_eq.
  destruct (cmp value v) as [[|]| |]; simpl bind; try discriminate.
  - destruct l as [c|]; simpl in IHl.
    + destruct (insert c value cmp) as [c'| |] eqn:I; simpl bind;
        try discriminate.
      intros E. inversion E; subst n'.
      destruct (IHl c' eq_refl) as (Z & l1 & l2 & E1 & E2).
      split.
      * destruct r; simpl in *; lia.
      * exists l1, (l2 ++ v :: records r).
        rewrite !records_node, E1, E2, <- !app_assoc. split; reflexivity.
    + intros E. inversion E; subst n'. split.
      * destruct r; reflexivity.
      * exists [], (v :: records r). rewrite !records_node.
        split; reflexivity.
  - destruct r as [c|]; simpl in IHr.
    + destruct (insert c value cmp) as [c'| |] eqn:I; simpl bind;
        try discriminate.
      intros E. inversion E; subst n'.
      destruct (IHr c' eq_refl) as (Z & l1 & l2 & E1 & E2).
      split.
      * destruct l; simpl in *; lia.
      * exists (records l ++ v :: l1), l2.
        rewrite !records_node, E1, E2, <- !app_assoc. split; reflexivity.
    + intros E. inversion E; subst n'. split.
      * destruct l; simpl; lia.
      * exists (records l ++ [v]), []. rewrite !records_node.
        rewrite <- !app_assoc, app_nil_r. split; reflexivity.
Qed.

(** X3: an insertion that returns adds one node and moves nothing: the
    sort index is kept, the tree has one node more, and the ascending walk
    is the old one with the new record put in at one place. *)
Theorem insert_adds_one_record (t t' : Tree) (value : Record) :
  Insert t value = Done t' ->
  sortIndex t' = sortIndex t /\
  sizeOf (root t') = S (sizeOf (root t)) /\
  exists l1 l2,
    output t false = l1 ++ l2 /\
    output t' false = l1 ++ value :: l2.
Proof.
  intros H. rewrite !output_records.
  destruct (root t) as [rt|] eqn:E.
  - destruct (Insert_Done_inv t t' rt value E H) as [V L].
    rewrite (Insert_checked t rt value E V L) in H.
    destruct (insert rt value (fieldCmp (sortIndex t))) as [rt'| |] eqn:I;
      simpl in H; try discriminate.
    inversion H; subst t'. simpl.
    destruct (insert_splits _ _ rt rt' I) as (Z & l1 & l2 & E1 & E2).
    conjs; trivial. now exists l1, l2.
  - rewrite (Insert_empty t value E) in H. inversion H; subst t'. simpl.
    conjs; trivial. now exists [], [].
Qed.

Lemma insert_adds_one_record_witness :
  sortIndex (mkTree 0 (Some (mkNode ["b"] (Some (leaf ["a"])) None)))
    = sortIndex (mkTree 0 (Some (leaf ["b"]))) /\
  sizeOf (root (mkTree 0 (Some (mkNode ["b"] (Some (leaf ["a"])) None))))
    = S (sizeOf (root (mkTree 0 (Some (leaf ["b"]))))) /\
  exists l1 l2,
    output (mkTree 0 (Some (leaf ["b"]))) false = l1 ++ l2 /\
    output (mkTree 0 (Some (mkNode ["b"] (Some (leaf ["a"])) None))) false
      = l1 ++ ["a"] :: l2.
Proof.
  apply (insert_adds_one_record (mkTree 0 (Some (leaf ["b"])))).
  reflexivity.
Defined.

(** X4: the first record of a stream stays at the root of the tree, and
    the tree keeps the sort index it was created with. *)
Theorem first_record_stays_root (i : N) (r0 : Record) (rs : list Record)
    (t : Tree) :
  BuildTreeFromStream (NewTree i) (r0 :: rs) = Done t ->
  sortIndex t = i /\ exists rt, root t = Some rt /\ val rt = r0.
Proof.
  simpl. intros H.
  now destruct (Build_root_val rs (mkTree i (Some (leaf r0))) t (leaf r0)
                  eq_refl H) as (S & rt & E & V); eauto.
Qed.

Lemma first_record_stays_root_witness :
  sortIndex (mkTree 0 (Some (mkNode ["m"] (Some (leaf ["a"]))
                                          (Some (leaf ["z"]))))) = 0%N /\
  exists rt,
    root (mkTree 0 (Some (mkNode ["m"] (Some (leaf ["a"]))
                                       (Some (leaf ["z"]))))) = Some rt /\
    val rt = ["m"].
Proof.
  apply (first_record_stays_root 0 ["m"] [["z"]; ["a"]]).
  reflexivity.
Defined.

(** ** The result of a build *)

Lemma checkRecord_index (i : N) (a : nat) (r : Record) :
  (N.of_nat (List.length r) <= i)%N ->
  checkRecord i a r = Some IndexOutOfRange.
Proof.
  intros H. unfold checkRecord. apply N.leb_le in H. now rewrite H.
Qed.

Lemma checkRecord_length (i : N) (a : nat) (r : Record) :
  (i < N.of_nat (List.length r))%N -> List.length r <> a ->
  checkRecord i a r = Some (InvalidRecordLength (List.length r)).
Proof.
  intros H D. unfold checkRecord.
  apply N.leb_gt in H. rewrite H.
  apply Nat.eqb_neq in D. now rewrite D.
Qed.

Lemma checkRecord_pass (i : N) (a : nat) (r : Record) :
  (i < N.of_nat (List.length r))%N -> List.length r = a ->
  checkRecord i a r = None.
Proof.
  intros H D. unfold checkRecord.
  apply N.leb_gt in H. rewrite H.
  apply Nat.eqb_eq in D. now rewrite D.
Qed.

Lemma checkRecord_None (i : N) (a : nat) (r : Record) :
  checkRecord i a r = None ->
  (i < N.of_nat (List.length r))%N /\ List.length r = a.
Proof.
  unfold checkRecord.
  destruct (N.of_nat (List.length r) <=? i)%N eqn:L; [discriminate|].
  destruct (List.length r =? a) eqn:D; [|discriminate].
  intros _. split; [now apply N.leb_gt | now apply Nat.eqb_eq].
Qed.

Lemma firstBad_None (i : N) (a : nat) (rs : list Record) :
  firstBad i a rs = None ->
  Forall (fun r => (i < N.of_nat (List.length r))%N /\ List.length r = a) rs.
Proof.
  induction rs as [|r rs IH]; simpl; [constructor|].
  destruct (checkRecord i a r) eqn:C; [discriminate|].
  intros H. constructor; [now apply checkRecord_None | now apply IH].
Qed.

Lemma firstBad_pass (i : N) (a : nat) (rs : list Record) :
  Forall (fun r => List.length r = a) rs -> (i < N.of_nat a)%N ->
  firstBad i a rs = None.
Proof.
  intros F Hi. induction F as [|r rs E F IH]; simpl; [reflexivity|].
  rewrite checkRecord_pass; [assumption | now rewrite E | assumption].
Qed.

(** A build that starts from a tree with a root. *)
Lemma Build_from_root (i : N) :
  forall (rs : list Record) (t : Tree) (rt : Node),
    sortIndex t = i -> root t = Some rt ->
    (inRange i (val rt) -> Good i t) ->
    BuildTreeFromStream t rs =
    match firstBad i (List.length (val rt)) rs with
    | Some d => Fatal d
    | None => Done (fold_left (grow i) rs t)
    end.
Proof.
  induction rs as [|r rs IH]; intros t rt Ei E G; [reflexivity|].
  simpl firstBad.
  destruct (N.le_gt_cases (N.of_nat (List.length r)) i) as [L|L].
  - rewrite (checkRecord_index i _ r L). apply Build_fatal_head.
    apply (Insert_index_fatal t rt); [assumption | now rewrite Ei].
  - destruct (Nat.eq_dec (List.length r) (List.length (val rt))) as [D|D].
    + rewrite (checkRecord_pass i _ r L D).
      assert (V : inRange i (val rt)) by (unfold inRange; now rewrite <- D).
      assert (Sc : schema (List.length r) (root t)).
      { rewrite E. simpl. congruence. }
      simpl BuildTreeFromStream.
      rewrite (Insert_Good i t r (G V) L Sc). simpl bind.
      change (mkTree i (Some (descend i r (root t)))) with (grow i t r).
      rewrite (IH (grow i t r) (descend i r (root t))); trivial.
      * rewrite val_descend, E. reflexivity.
      * intros _. now apply Good_descend; [apply G | |].
    + rewrite (checkRecord_length i _ r L D). apply Build_fatal_head.
      apply (Insert_length_fatal t rt); [assumption | now rewrite Ei | assumption].
Qed.

(** X5: the result of a build from the empty tree, in closed form.  The run
    is fatal exactly when a record after the first fails a check, with the
    diagnostic of the first such record (the index check comes before the
    arity check); otherwise it returns the tree grown by one descent for
    each record. *)
Theorem build_result (i : N) (r0 : Record) (rs : list Record) :
  BuildTreeFromStream (NewTree i) (r0 :: rs) =
  match firstBad i (List.length r0) rs with
  | Some d => Fatal d
  | None => Done (fold_left (grow i) rs (mkTree i (Some (leaf r0))))
  end.
Proof.
  simpl BuildTreeFromStream.
  apply (Build_from_root i rs (mkTree i (Some (leaf r0))) (leaf r0));
    trivial.
  apply Good_leaf.
Qed.

(** X6: a build from the empty tree never panics: whatever the stream, the
    comparator never indexes a record outside its fields. *)
Theorem build_never_panics (i : N) (rs : list Record) :
  BuildTreeFromStream (NewTree i) rs <> Panic.
Proof.
  destruct rs as [|r0 rs]; [discriminate|].
  assert (H := Build_from_root i rs (mkTree i (Some (leaf r0))) (leaf r0)
                 eq_refl eq_refl (Good_leaf i r0)).
  simpl BuildTreeFromStream. rewrite H.
  destruct (firstBad i (List.length (val (leaf r0))) rs); discriminate.
Qed.

(** X7: a build that returns has kept every record, and the records of its
    stream all have one arity (that of the first); when there are two or
    more, each has the sort field. *)
Theorem build_done_stream (i : N) (rs : list Record) (t : Tree) :
  BuildTreeFromStream (NewTree i) rs = Done t ->
  Permutation (output t false) rs /\
  sizeOf (root t) = List.length rs /\
  (forall r r', In r rs -> In r' rs -> List.length r = List.length r') /\
  (2 <= List.length rs -> Forall (inRange i) rs).
Proof.
  destruct rs as [|r0 rs].
  - simpl. intros H. inversion H; subst t.
    conjs; try reflexivity; [intros r r' [] | simpl; lia].
  - intros H. assert (H' := H). simpl BuildTreeFromStream in H'.
    rewrite (Build_from_root i rs (mkTree i (Some (leaf r0))) (leaf r0)
               eq_refl eq_refl (Good_leaf i r0)) in H'.
    simpl val in H'.
    destruct (firstBad i (List.length r0) rs) eqn:B; [discriminate|].
    apply firstBad_None in B.
    assert (Fa : Forall (fun r => List.length r = List.length r0) (r0 :: rs)).
    { constructor; [reflexivity|]. revert B. apply Forall_impl. tauto. }
    destruct rs as [|r1 rs].
    + simpl in H'. inversion H'; subst t.
      conjs; try reflexivity.
      * intros r r' [<-|[]] [<-|[]]. reflexivity.
      * simpl. lia.
    + assert (Hi : (i < N.of_nat (List.length r0))%N).
      { inversion B as [|? ? [L1 L2] _]; subst. now rewrite <- L2. }
      destruct (Build_Good i (List.length r0) Hi (r0 :: r1 :: rs) (NewTree i)
                  Fa (Good_NewTree i) I) as (t2 & B2 & _ & P & _ & Z).
      rewrite H in B2. inversion B2; subst t2.
      rewrite output_records. conjs; trivial.
      * intros r r' Hr Hr'. rewrite Forall_forall in Fa.
        now rewrite (Fa r Hr), (Fa r' Hr').
      * intros _. revert Fa. apply Forall_impl.
        intros r E. unfold inRange. now rewrite E.
Qed.

Lemma build_done_stream_witness :
  Permutation
    (output (mkTree 1 (Some (mkNode ["x"; "m"] (Some (leaf ["y"; "c"]))
                                               None))) false)
    [["x"; "m"]; ["y"; "c"]] /\
  sizeOf (root (mkTree 1 (Some (mkNode ["x"; "m"] (Some (leaf ["y"; "c"]))
                                                  None)))) = 2 /\
  (forall r r', In r [["x"; "m"]; ["y"; "c"]] ->
                In r' [["x"; "m"]; ["y"; "c"]] ->
                List.length r = List.length r') /\
  (2 <= 2 -> Forall (inRange 1) [["x"; "m"]; ["y"; "c"]]).
Proof.
  apply (build_done_stream 1 [["x"; "m"]; ["y"; "c"]]).
  reflexivity.
Defined.

(** ** The build as a stable insertion sort *)

Lemma fieldLt_less (i : N) (a b : Record) : fieldLt i a b -> less i a b = true.
Proof.
  intros (fa & fb & Ea & Eb & L). unfold less, fieldAt in *.
  now rewrite (nth_error_nth a _ EmptyString Ea),
              (nth_error_nth b _ EmptyString Eb).
Qed.

Lemma fieldLe_not_less (i : N) (a b : Record) :
  fieldLe i a b -> less i b a = false.
Proof.
  intros (fa & fb & Ea & Eb & L). unfold less, fieldAt in *.
  now rewrite (nth_error_nth a _ EmptyString Ea),
              (nth_error_nth b _ EmptyString Eb).
Qed.

Lemma place_before (i : N) (v x : Record) (l1 l2 : list Record) :
  less i v x = true ->
  place i v (l1 ++ x :: l2) = place i v l1 ++ x :: l2.
Proof.
  intros L. induction l1 as [|y l1 IH]; simpl.
  - now rewrite L.
  - destruct (less i v y); [reflexivity | now rewrite IH].
Qed.

Lemma place_after (i : N) (v : Record) (l1 l2 : list Record) :
  (forall x, In x l1 -> less i v x = false) ->
  place i v (l1 ++ l2) = l1 ++ place i v l2.
Proof.
  induction l1 as [|y l1 IH]; intros H; simpl; [reflexivity|].
  rewrite (H y (or_introl eq_refl)), IH; [reflexivity|].
  intros x Hx. apply H. now right.
Qed.

(** In a search tree the descent puts the record where [place] puts it. *)
Lemma records_descendNode_place (i : N) (value : Record) :
  inRange i value ->
  forall n : Node,
    Forall (inRange i) (records (Some n)) ->
    BST i n ->
    records (Some (descendNode i value n))
    = place i value (records (Some n)).
Proof.
  intros V. induction n as [v l r IHl IHr] using Node_ptr_ind. intros F B.
  rewrite records_node in F. apply Forall_app in F. destruct F as [Fl F].
  inversion F as [|? ? Hv Fr]; subst.
  destruct B as (Bl & Br & Sl & Sr). simpl in Bl, Br.
  rewrite descendNode_eq. destruct (less i value v) eqn:L.
  - rewrite !records_node, (place_before i value v _ _ L). f_equal.
    destruct l as [c|]; simpl in *; [now apply IHl | reflexivity].
  - rewrite !records_node.
    rewrite (place_after i value (records l) (v :: records r)).
    + simpl. rewrite L. do 2 f_equal.
      destruct r as [c|]; simpl in *; [now apply IHr | reflexivity].
    + intros x Hx. apply fieldLe_not_less.
      apply (fieldLt_le_trans i x v value); [now apply Bl|].
      now apply not_less_fieldLe.
Qed.

Lemma records_grow_place (i : N) (t : Tree) (value : Record) :
  Good i t -> inRange i value ->
  records (root (grow i t value)) = place i value (records (root t)).
Proof.
  intros (_ & A & B) V. simpl. destruct (root t) as [rt|]; simpl in B |- *.
  - apply records_descendNode_place; trivial.
    now apply (arityOK_in_range i (Some rt)).
  - reflexivity.
Qed.

Lemma records_fold_grow (i : N) (a : nat) :
  (i < N.of_nat a)%N ->
  forall (rs : list Record) (t : Tree),
    Forall (fun r => List.length r = a) rs ->
    Good i t -> schema a (root t) ->
    records (root (fold_left (grow i) rs t))
    = fold_left (fun l v => place i v l) rs (records (root t)).
Proof.
  intros Hi. induction rs as [|r rs IH]; intros t F G Sc; [reflexivity|].
  inversion F as [|? ? Lr Frs]; subst.
  assert (V : inRange i r) by exact Hi.
  assert (Sr : schema (List.length r) (root t)).
  { destruct (root t); simpl in *; congruence. }
  simpl fold_left. rewrite IH; trivial.
  - now rewrite records_grow_place.
  - now apply Good_descend.
  - simpl. rewrite val_descend. destruct (root t); simpl in *; congruence.
Qed.

Lemma Build_stableSort (i : N) (a : nat) (rs : list Record) :
  Forall (fun r => List.length r = a) rs ->
  (i < N.of_nat a)%N ->
  exists t,
    BuildTreeFromStream (NewTree i) rs = Done t /\
    records (root t) = stableSort i rs.
Proof.
  intros F Hi.
  destruct rs as [|r0 rs]; [now exists (NewTree i)|].
  inversion F as [|? ? L0 Frs]; subst.
  exists (fold_left (grow i) rs (mkTree i (Some (leaf r0)))). split.
  - simpl BuildTreeFromStream.
    rewrite (Build_from_root i rs (mkTree i (Some (leaf r0))) (leaf r0)
               eq_refl eq_refl (Good_leaf i r0)).
    simpl val. now rewrite firstBad_pass.
  - rewrite (records_fold_grow i (List.length r0) Hi); trivial.
    + now apply Good_leaf.
    + reflexivity.
Qed.

(** X8: for records of one arity and a sort index within it, the ascending
    output is the stable insertion sort of the stream on the sort field:
    each record in turn goes in front of the first record strictly above
    it.  The output depends on the stream only, not on the shape of the
    tree. *)
Theorem output_is_stable_sort (i : N) (a : nat) (rs : list Record) :
  Forall (fun r => List.length r = a) rs ->
  (i < N.of_nat a)%N ->
  exists t,
    BuildTreeFromStream (NewTree i) rs = Done t /\
    output t false = stableSort i rs /\
    output t true = rev (stableSort i rs).
Proof.
  intros F Hi.
  destruct (Build_stableSort i a rs F Hi) as (t & B & R). exists t.
  rewrite !output_records, R. conjs; trivial.
Qed.

Lemma output_is_stable_sort_witness :
  exists t,
    BuildTreeFromStream (NewTree 0)
      [["b"; "1"]; ["a"; "2"]; ["b"; "3"]; ["a"; "4"]] = Done t /\
    output t false
      = stableSort 0 [["b"; "1"]; ["a"; "2"]; ["b"; "3"]; ["a"; "4"]] /\
    output t true
      = rev (stableSort 0 [["b"; "1"]; ["a"; "2"]; ["b"; "3"]; ["a"; "4"]]).
Proof.
  apply (output_is_stable_sort 0 2).
  - repeat constructor.
  - reflexivity.
Defined.

(** ** The depth of the tree *)

Lemma height_le_size : forall n : Node, height n <= size n.
Proof.
  induction n as [v l r IHl IHr] using Node_ptr_ind.
  destruct l as [c|], r as [d|]; simpl in *; lia.
Qed.

Lemma descendNode_spine (i : N) (value : Record) :
  forall n : Node,
    rightSpine n ->
    (forall x, In x (records (Some n)) -> less i value x = false) ->
    rightSpine (descendNode i value n) /\
    height (descendNode i value n) = S (height n).
Proof.
  induction n as [v l r IHl IHr] using Node_ptr_ind. intros [Sl Sr] H.
  simpl in Sl, Sr. subst l. rewrite descendNode_eq.
  rewrite records_node in H. simpl in H.
  rewrite (H v (or_introl eq_refl)).
  destruct r as [c|]; simpl in IHr.
  - destruct (IHr Sr) as [S' H'].
    { intros x Hx. apply H. now right. }
    split.
    + split; [reflexivity | exact S'].
    + simpl in *. now rewrite H'.
  - split; [repeat split | reflexivity].
Qed.

Lemma fold_grow_spine (i : N) (a : nat) :
  (i < N.of_nat a)%N ->
  forall (rs : list Record) (t : Tree),
    Forall (fun r => List.length r = a) rs ->
    StronglySorted (fieldLe i) rs ->
    (forall x y, In x (records (root t)) -> In y rs -> fieldLe i x y) ->
    on_ptr rightSpine (root t) ->
    on_ptr rightSpine (root (fold_left (grow i) rs t)) /\
    heightOf (root (fold_left (grow i) rs t))
    = heightOf (root t) + List.length rs.
Proof.
  intros Hi. induction rs as [|r rs IH]; intros t F Srt H Sp.
  - simpl. split; [assumption | lia].
  - inversion F as [|? ? Lr Frs]; subst.
    apply StronglySorted_inv in Srt. destruct Srt as [Srt Fr].
    assert (D : on_ptr rightSpine (root (grow i t r)) /\
                heightOf (root (grow i t r)) = S (heightOf (root t))).
    { simpl. destruct (root t) as [rt|]; simpl in Sp |- *.
      - apply descendNode_spine; trivial.
        intros x Hx. apply fieldLe_not_less. apply H; [assumption | now left].
      - split; [repeat split | reflexivity]. }
    destruct D as [D1 D2].
    destruct (IH (grow i t r) Frs Srt) as [I1 I2]; trivial.
    + intros x y Hx Hy. simpl in Hx.
      apply (Permutation_in _ (records_descend i r (root t))) in Hx.
      apply in_app_or in Hx. destruct Hx as [Hx|[<-|[]]].
      * apply H; [assumption | now right].
      * rewrite Forall_forall in Fr. now apply Fr.
    + simpl fold_left. split; [assumption|].
      rewrite I2, D2. simpl. lia.
Qed.

(** X9: a stream that is already in ascending order on the sort field
    gives the deepest tree there is: no node has a left child, and the
    depth, which no tree has above its number of nodes, is the number of
    records. *)
Theorem sorted_stream_gives_spine (i : N) (a : nat) (rs : list Record) :
  Forall (fun r => List.length r = a) rs ->
  (i < N.of_nat a)%N ->
  StronglySorted (fieldLe i) rs ->
  exists t,
    BuildTreeFromStream (NewTree i) rs = Done t /\
    on_ptr rightSpine (root t) /\
    heightOf (root t) = List.length rs /\
    heightOf (root t) = sizeOf (root t) /\
    (forall t' : Tree, heightOf (root t') <= sizeOf (root t')).
Proof.
  intros F Hi Srt.
  assert (Bound : forall t' : Tree, heightOf (root t') <= sizeOf (root t')).
  { intros t'. destruct (root t') as [n|]; simpl;
      [apply height_le_size | lia]. }
  destruct (Build_Good i a Hi rs (NewTree i) F (Good_NewTree i) I)
    as (t & B & _ & _ & _ & Z).
  exists t. split; [assumption|]. simpl in Z. rewrite Z.
  destruct rs as [|r0 rs].
  - simpl in B. inversion B; subst t. simpl. conjs; trivial.
  - assert (B' := B). simpl BuildTreeFromStream in B'.
    rewrite (Build_from_root i rs (mkTree i (Some (leaf r0))) (leaf r0)
               eq_refl eq_refl (Good_leaf i r0)) in B'.
    simpl val in B'. inversion F as [|? ? L0 Frs]; subst.
    rewrite firstBad_pass in B' by assumption. inversion B'; subst t.
    apply StronglySorted_inv in Srt. destruct Srt as [Srt Fr].
    destruct (fold_grow_spine i (List.length r0) Hi rs
                (mkTree i (Some (leaf r0))) Frs Srt) as [I1 I2].
    + intros x y [<-|[]] Hy. rewrite Forall_forall in Fr. now apply Fr.
    + repeat split.
    + conjs; trivial; rewrite I2; reflexivity.
Qed.

Lemma sorted_stream_gives_spine_witness :
  exists t,
    BuildTreeFromStream (NewTree 0) [["a"]; ["b"]; ["b"]; ["c"]] = Done t /\
    on_ptr rightSpine (root t) /\
    heightOf (root t) = 4 /\
    heightOf (root t) = sizeOf (root t) /\
    (forall t' : Tree, heightOf (root t') <= sizeOf (root t')).
Proof.
  apply (sorted_stream_gives_spine 0 1).
  - repeat constructor.
  - reflexivity.
  - repeat first [ apply SSorted_nil | apply SSorted_cons
                 | apply Forall_nil | apply Forall_cons ];
      do 2 eexists; (split; [reflexivity | split; reflexivity]).
Defined.

(** ** The sort index that [main] passes *)

Lemma uintDec_zero (w : N) : uintDec w 0 = (2 ^ w - 1)%N.
Proof.
  unfold uintDec. rewrite N.add_0_l.
  assert (0 < 2 ^ w)%N by (apply N.neq_0_lt_0, N.pow_nonzero; discriminate).
  apply N.mod_small. lia.
Qed.

Lemma uintDec_pos (w x : N) :
  (1 <= x < 2 ^ w)%N -> uintDec w x = (x - 1)%N.
Proof.
  intros [L U]. unfold uintDec.
  replace (x + 2 ^ w - 1)%N with ((x - 1) + 1 * 2 ^ w)%N by lia.
  rewrite N.Div0.mod_add. apply N.mod_small. lia.
Qed.

(** X10: the flag [-f] counts fields from one: a value from 1 up to the
    largest [uint] makes the tree sort on the field before it.  The value 0
    is not refused: the subtraction wraps to the largest [uint], so that a
    single record is taken as it is and a second record, however many
    fields it has, ends the run with the index diagnostic. *)
Theorem main_sort_index (w index : N) :
  ((1 <= index < 2 ^ w)%N ->
   sortIndex (mainTree w index) = (index - 1)%N) /\
  (forall r0, BuildTreeFromStream (mainTree w 0) [r0]
              = Done (mkTree (2 ^ w - 1) (Some (leaf r0)))) /\
  (forall r0 r1 rest,
     (N.of_nat (List.length r1) < 2 ^ w)%N ->
     BuildTreeFromStream (mainTree w 0) (r0 :: r1 :: rest)
     = Fatal IndexOutOfRange).
Proof.
  unfold mainTree. split; [|split].
  - intros H. simpl. now apply uintDec_pos.
  - intros r0. rewrite uintDec_zero. reflexivity.
  - intros r0 r1 rest H. rewrite uintDec_zero.
    change (BuildTreeFromStream (NewTree (2 ^ w - 1)) (r0 :: r1 :: rest))
      with (BuildTreeFromStream (mkTree (2 ^ w - 1) (Some (leaf r0)))
              (r1 :: rest)).
    apply Build_fatal_head.
    apply (Insert_index_fatal _ (leaf r0)); [reflexivity|].
    simpl sortIndex. lia.
Qed.

Lemma main_sort_index_witness :
  sortIndex (mainTree 64 3) = 2%N /\
  BuildTreeFromStream (mainTree 64 0) [["a"; "b"]; ["c"; "d"]; ["e"; "f"]]
  = Fatal IndexOutOfRange.
Proof.
  destruct (main_sort_index 64 3) as (H1 & _ & H3). split.
  - apply H1. vm_compute. split; [discriminate | reflexivity].
  - apply H3. reflexivity.
Defined.

(** ** Further properties of the reader *)

Lemma Split_plain (sep : ascii) :
  forall f : string, occurrences sep f = 0 -> Split f sep = [f].
Proof.
  induction f as [|c f IH]; [reflexivity|].
  unfold occurrences in *. simpl.
  destruct (ascii_dec c sep) as [E|E]; [discriminate|].
  apply Ascii.eqb_neq in E. rewrite E. intros H. now rewrite (IH H).
Qed.

Lemma Split_field_then (sep : ascii) (rest : string) :
  forall f : string,
    occurrences sep f = 0 ->
    Split (f ++ String sep rest) sep = f :: Split rest sep.
Proof.
  induction f as [|c f IH]; simpl.
  - intros _. now rewrite Ascii.eqb_refl.
  - unfold occurrences in *. simpl.
    destruct (ascii_dec c sep) as [E|E]; [discriminate|].
    apply Ascii.eqb_neq in E. rewrite E. intros H. now rewrite (IH H).
Qed.

(** X11: cutting at the separator undoes joining with it: for fields that
    do not hold the separator, at least one of them, [Split] of the joined
    line gives the fields back. *)
Theorem Split_of_joined (sep : ascii) (fs : list string) :
  fs <> [] ->
  Forall (fun f => occurrences sep f = 0) fs ->
  Split (String.concat (String sep EmptyString) fs) sep = fs.
Proof.
  intros NE F. induction F as [|f fs Hf F IH]; [contradiction|].
  destruct fs as [|g fs].
  - simpl. now apply Split_plain.
  - change (String.concat (String sep EmptyString) (f :: g :: fs))
      with (f ++ String sep
                   (String.concat (String sep EmptyString) (g :: fs)))%string.
    rewrite (Split_field_then sep _ f Hf), IH; [reflexivity | discriminate].
Qed.

Lemma Split_of_joined_witness :
  Split (String.concat "," ["a"; EmptyString; "b c"]) comma
  = ["a"; EmptyString; "b c"].
Proof.
  apply (Split_of_joined comma).
  - discriminate.
  - repeat constructor.
Defined.








(** ** Streams in parts, streams in order *)

(** X14: a build over a stream in two parts is the build over the first
    part followed by the build over the second from the tree reached; when
    the first part is fatal the run is, with the same diagnostic, and the
    second part plays no role. *)
Theorem build_in_two_parts (t : Tree) (l1 l2 : list Record) :
  BuildTreeFromStream t (l1 ++ l2) =
  match BuildTreeFromStream t l1 with
  | Done t1 => BuildTreeFromStream t1 l2
  | Fatal d => Fatal d
  | Panic => Panic
  end.
Proof. apply Build_app. Qed.

Lemma place_all_sorted (i : N) :
  forall (rs acc : list Record),
    StronglySorted (fieldLe i) rs ->
    (forall x y, In x acc -> In y rs -> fieldLe i x y) ->
    fold_left (fun l v => place i v l) rs acc = acc ++ rs.
Proof.
  induction rs as [|r rs IH]; intros acc Srt H; simpl.
  - now rewrite app_nil_r.
  - apply StronglySorted_inv in Srt. destruct Srt as [Srt Fr].
    assert (E : place i r acc = acc ++ [r]).
    { rewrite <- (app_nil_r acc) at 1. apply place_after.
      intros x Hx. apply fieldLe_not_less. apply H; [assumption | now left]. }
    rewrite E, IH; trivial.
    + now rewrite <- app_assoc.
    + intros x y Hx Hy. apply in_app_or in Hx. destruct Hx as [Hx|[<-|[]]].
      * apply H; [assumption | now right].
      * rewrite Forall_forall in Fr. now apply Fr.
Qed.

(** X15: a stream that is already in ascending order on the sort field
    comes out as it went in, ties included; the descending output is the
    stream backwards. *)
Theorem sorted_stream_unchanged (i : N) (a : nat) (rs : list Record) :
  Forall (fun r => List.length r = a) rs ->
  (i < N.of_nat a)%N ->
  StronglySorted (fieldLe i) rs ->
  exists t,
    BuildTreeFromStream (NewTree i) rs = Done t /\
    output t false = rs /\
    output t true = rev rs.
Proof.
  intros F Hi Srt.
  destruct (Build_stableSort i a rs F Hi) as (t & B & R). exists t.
  assert (E : stableSort i rs = rs).
  { unfold stableSort. rewrite place_all_sorted; trivial.
    intros x y []. }
  rewrite !output_records, R, E. conjs; trivial.
Qed.

Lemma sorted_stream_unchanged_witness :
  exists t,
    BuildTreeFromStream (NewTree 0)
      [["a"; "2"]; ["b"; "9"]; ["b"; "1"]] = Done t /\
    output t false = [["a"; "2"]; ["b"; "9"]; ["b"; "1"]] /\
    output t true = rev [["a"; "2"]; ["b"; "9"]; ["b"; "1"]].
Proof.
  apply (sorted_stream_unchanged 0 2).
  - repeat constructor.
  - reflexivity.
  - repeat first [ apply SSorted_nil | apply SSorted_cons
                 | apply Forall_nil | apply Forall_cons ];
      do 2 eexists; (split; [reflexivity | split; reflexivity]).
Defined.
